(** * gsync.Map: a generic wrapper around Go's sync.Map

    Shallow embedding of [map.go] (package gsync) and proofs of its
    sequential contract.

    Modelling choices.
    - Go's [sync.Map] stores interface values ([any]).  The wrapper converts
      every [V] it stores to [any] and type-asserts every [any] it reads
      back to [V].  The type [any] below has the nil interface value and the
      boxed values of dynamic type [V].
    - [K] and [V] may be interface types.  The nil value of an interface
      type converts to the nil interface; every other value converts to a
      boxed value.  The predicates [isNilK] and [isNilV] say which values
      are nil interface values; for a type that is not an interface type
      (such as the [string] and [int] of the repository's test) they are
      constantly [false].
    - A single-result type assertion [a.(V)] panics on the nil interface.
      Methods are therefore computations in a state-and-panic monad over the
      contents of the underlying [sync.Map].
    - The conversion of keys to [any] is injective, so the contents are
      indexed by [K]; the assertion [key.(K)] on a key handed back by
      [sync.Map.Range] panics exactly on the nil key.
    - Values are compared with Go's [==] on interface values, taken here as
      decidable equality: the dynamic values of [V] are comparable, as
      [CompareAndSwap] and [CompareAndDelete] require.
    - All statements are sequential (one caller): an operation is a function
      from the contents before the call to an outcome.
    - [sync.Map.Range] walks a snapshot of the key set in an unspecified
      order.  The order is an explicit argument [ks] of every method that
      ranges; keys of the snapshot that are no longer present when they are
      reached are skipped, as in the Go implementation.
    - Callbacks passed as [func(old V) V] are pure total functions. *)

From stdpp Require Import gmap strings list fin_maps pretty.
From Stdlib Require Import ZArith.

Local Open Scope Z_scope.

(** ** Outcomes and the state-and-panic monad *)

Inductive outcome (S A : Type) : Type :=
  | Done (a : A) (s : S)
  | Panic (s : S).
Arguments Done {S A} a s.
Arguments Panic {S A} s.

Definition M (S A : Type) : Type := S → outcome S A.

Definition ret {S A} (a : A) : M S A := λ s, Done a s.

Definition bind {S A B} (c : M S A) (k : A → M S B) : M S B :=
  λ s, match c s with
       | Done a s' => k a s'
       | Panic s' => Panic s'
       end.

Definition panic {S A} : M S A := λ s, Panic s.

(** The contents an outcome leaves behind, however the call ended. *)
Definition contents {S A} (o : outcome S A) : S :=
  match o with
  | Done _ s => s
  | Panic s => s
  end.

(** The value a call returns, if it returns. *)
Definition value_of {S A} (o : outcome S A) : option A :=
  match o with
  | Done a _ => Some a
  | Panic _ => None
  end.

(** Whether a call returns rather than panics. *)
Definition is_done {S A} (o : outcome S A) : bool :=
  match o with
  | Done _ _ => true
  | Panic _ => false
  end.

Declare Scope go_scope.
Delimit Scope go_scope with go.
Notation "'let*' x ':=' c 'in' k" := (bind c (λ x, k))
  (at level 10, x pattern, c at level 100, k at level 200,
   format "'[v' 'let*'  x  ':='  c  'in' '/' k ']'") : go_scope.
Notation "c ;; k" := (bind c (λ _, k))
  (at level 100, right associativity) : go_scope.
Local Open Scope go_scope.

(** ** Go's [int] (64 bits, two's complement) *)

Definition int_wrap (z : Z) : Z := (z + 2 ^ 63) mod 2 ^ 64 - 2 ^ 63.

(** [l++] on an [int]. *)
Definition int_incr (l : Z) : Z := int_wrap (l + 1).

(** ** strings.Join *)

(** [strings.Join(elems, sep)]: empty for no element, otherwise the first
    element followed by [sep] and the next element for every further one. *)
Definition Join (elems : list string) (sep : string) : string :=
  match elems with
  | [] => ""
  | e :: rest => fold_left (λ b s, b +:+ sep +:+ s) rest e
  end.

(** The items a walk handles when the callback answers [p] to go on:
    everything up to and including the first item on which [p] is false. *)
Fixpoint upto_stop {B} (p : B → bool) (l : list B) : list B :=
  match l with
  | [] => []
  | x :: l' => if p x then x :: upto_stop p l' else [x]
  end.

(** ** Interface values *)

(** The values of Go's [any] that the wrapper can meet: the nil interface
    and an interface holding a value of dynamic type [V]. *)
Inductive any (V : Type) : Type :=
  | nil
  | box (v : V).
Arguments nil {V}.
Arguments box {V} v.

#[global] Instance any_eq_dec {V} `{EqDecision V} : EqDecision (any V).
Proof. solve_decision. Defined.

(** A type that is not an interface type has no nil interface value. *)
Definition never_nil {A} (x : A) : bool := false.

(** ** The instance of the repository's test: [Map[string, int]] *)

Module StringInt.

(** Contents of a [Map[string, int]]. *)
Abbreviation Data := (gmap string (any Z)).

(** The zero value of [int]. *)
Definition zero : Z := 0.

(** [%v] of a string is the string; [%v] of an [int] is its decimal form. *)
Definition fmt_string (s : string) : string := s.
Definition fmt_int (z : Z) : string := pretty z.

Definition ab : gmap string Z := <["a" := 1]> (<["b" := 2]> ∅).
Definition boxed_ab : Data := box <$> ab.
Definition double (old : Z) : Z := 2 * old.

End StringInt.

(** ** Instances with an interface type: [Map[string, any]], [Map[any, int]] *)

Module Iface.

(** The values of an interface type whose dynamic values are integers:
    [None] is the nil value of the type, [Some z] holds [z]. *)
Definition iface : Type := option Z.

Definition is_nil {A} (x : option A) : bool :=
  match x with
  | None => true
  | Some _ => false
  end.

(** [%v] of an interface value: [<nil>] for nil, else that of what it holds. *)
Definition fmt_iface (v : iface) : string :=
  match v with
  | None => "<nil>"
  | Some z => pretty z
  end.

(** Keys of an interface type whose dynamic values are strings. *)
Definition fmt_key (k : option string) : string :=
  match k with
  | None => "<nil>"
  | Some s => s
  end.

(** A transform that returns the nil value. *)
Definition to_nil (old : iface) : iface := None.

(** Contents of a [Map[string, any]] and of a [Map[any, int]]. *)
Abbreviation DataV := (gmap string (any iface)).
Abbreviation DataK := (gmap (option string) (any Z)).

End Iface.

Create HintDb gsync.

Section gsync.
Set Default Proof Using "Type".
Context {K : Type} `{Countable K}.
Context {V : Type} `{EqDecision V}.

(** Which keys and values are the nil value of an interface type. *)
Variable isNilK : K → bool.
Variable isNilV : V → bool.

(** The zero value of [V]. *)
Variable zeroV : V.

(** [fmt]'s default ([%v]) rendering of keys and values. *)
Variable fmtK : K → string.
Variable fmtV : V → string.

(** Contents of the underlying [sync.Map]. *)
#[local] Abbreviation Data := (gmap K (any V)).
#[local] Abbreviation Go := (M Data).

(** *** The standard library's [sync.Map], sequentially *)

Definition sync_Load (key : K) : Go (any V * bool) :=
  λ d, match d !! key with
       | Some v => Done (v, true) d
       | None => Done (nil, false) d
       end.

Definition sync_Store (key : K) (value : any V) : Go unit :=
  λ d, Done tt (<[key := value]> d).

Definition sync_LoadOrStore (key : K) (value : any V) : Go (any V * bool) :=
  λ d, match d !! key with
       | Some a => Done (a, true) d
       | None => Done (value, false) (<[key := value]> d)
       end.

Definition sync_LoadAndDelete (key : K) : Go (any V * bool) :=
  λ d, match d !! key with
       | Some v => Done (v, true) (delete key d)
       | None => Done (nil, false) d
       end.

Definition sync_Delete (key : K) : Go unit :=
  sync_LoadAndDelete key ;; ret tt.

Definition sync_Swap (key : K) (value : any V) : Go (any V * bool) :=
  λ d, match d !! key with
       | Some p => Done (p, true) (<[key := value]> d)
       | None => Done (nil, false) (<[key := value]> d)
       end.

Definition sync_CompareAndSwap (key : K) (old new : any V) : Go bool :=
  λ d, match d !! key with
       | Some v => if decide (v = old)
                   then Done true (<[key := new]> d)
                   else Done false d
       | None => Done false d
       end.

Definition sync_CompareAndDelete (key : K) (old : any V) : Go bool :=
  λ d, match d !! key with
       | Some v => if decide (v = old)
                   then Done true (delete key d)
                   else Done false d
       | None => Done false d
       end.

(** [sync.Map.Range]: [ks] is the snapshot of keys in the order of the
    walk.  The variables the callback closes over are threaded through as
    [acc]; the callback returns their new contents and whether to go on. *)
Fixpoint sync_Range {A} (ks : list K) (f : K → any V → A → Go (A * bool))
    (acc : A) : Go A :=
  match ks with
  | [] => ret acc
  | k :: ks' =>
      let* (v, ok) := sync_Load k in
      if negb ok then sync_Range ks' f acc
      else
        let* (acc', continue) := f k v acc in
        if negb continue then ret acc'
        else sync_Range ks' f acc'
  end.

(** *** The wrapper *)

(** The conversion of a [V] to [any], implicit in Go wherever a [V] is
    passed to [sync.Map]. *)
Definition toAny (v : V) : any V :=
  if isNilV v then nil else box v.

(** The type assertion [a.(V)]. *)
Definition assertV (a : any V) : Go V :=
  match a with
  | box v => ret v
  | nil => panic
  end.

(** The type assertion [key.(K)] on a key handed back by [sync.Map]. *)
Definition assertK (key : K) : Go K :=
  if isNilK key then panic else ret key.

Definition Range {A} (ks : list K) (f : K → V → A → Go (A * bool))
    (acc : A) : Go A :=
  sync_Range ks
    (λ key value acc,
       let* k := assertK key in
       let* v := assertV value in
       f k v acc)
    acc.

Definition Load (key : K) : Go (V * bool) :=
  let value := zeroV in
  let* (v, ok) := sync_Load key in
  if negb ok then ret (value, ok)
  else let* x := assertV v in ret (x, ok).

Definition Get (key : K) : Go V :=
  let* (value, _) := Load key in
  ret value.

Definition Has (key : K) : Go bool :=
  let* (_, ok) := sync_Load key in
  ret ok.

Definition LoadAndDelete (key : K) : Go (V * bool) :=
  let value := zeroV in
  let* (v, loaded) := sync_LoadAndDelete key in
  if negb loaded then ret (value, loaded)
  else let* x := assertV v in ret (x, loaded).

Definition Store (key : K) (value : V) : Go unit :=
  sync_Store key (toAny value).

Definition LoadOrStore (key : K) (value : V) : Go (V * bool) :=
  let* (a, loaded) := sync_LoadOrStore key (toAny value) in
  let* x := assertV a in ret (x, loaded).

Definition GetOrStore (key : K) (value : V) : Go V :=
  let* (a, _) := sync_LoadOrStore key (toAny value) in
  assertV a.

Definition Delete (key : K) : Go unit :=
  sync_Delete key.

Definition Swap (key : K) (new : V) : Go (V * bool) :=
  let* (a, loaded) := sync_Swap key (toAny new) in
  let* x := assertV a in ret (x, loaded).

Definition CompareAndSwap (key : K) (old new : V) : Go bool :=
  sync_CompareAndSwap key (toAny old) (toAny new).

Definition CompareAndDelete (key : K) (value : V) : Go bool :=
  sync_CompareAndDelete key (toAny value).

Definition Compute (key : K) (f : V → V) : Go unit :=
  let* old := Get key in
  Store key (f old).

Definition ComputeAndGet (key : K) (f : V → V) : Go V :=
  let* old := Get key in
  GetOrStore key (f old).

Definition ComputeAndLoad (key : K) (f : V → V) : Go (V * bool) :=
  let* old := Get key in
  LoadOrStore key (f old).

Definition Len (ks : list K) : Go Z :=
  sync_Range ks (λ key value l, ret (int_incr l, true)) 0.

Definition Keys (ks : list K) : Go (list K) :=
  sync_Range ks
    (λ key value keys, let* k := assertK key in ret (keys ++ [k], true)) [].

Definition Values (ks : list K) : Go (list V) :=
  sync_Range ks
    (λ key value values, let* v := assertV value in ret (values ++ [v], true)) [].

Definition Clear (ks : list K) : Go unit :=
  sync_Range ks (λ key value _, sync_Delete key ;; ret (tt, true)) tt.

(** [fmt.Sprintf("%v: %v", key, value)]. *)
Definition Sprintf_pair (key : K) (value : V) : string :=
  fmtK key +:+ ": " +:+ fmtV value.

Definition String (ks : list K) : Go string :=
  let* toPrint := Range ks
    (λ key value toPrint, ret (toPrint ++ [Sprintf_pair key value], true)) [] in
  ret ("{" +:+ Join toPrint ", " +:+ "}").

(** *** Snapshots and well-typed contents *)

(** [ks] can be the key snapshot of a walk over [d]: no key twice, every
    key of [d] in it.  Keys deleted earlier may linger in a snapshot. *)
Definition traversal (ks : list K) (d : Data) : Prop :=
  NoDup ks ∧ map_Forall (λ k _, k ∈ ks) d.

#[global] Instance traversal_dec ks d : Decision (traversal ks d).
Proof. unfold traversal. apply _. Defined.

(** The associations a walk along [ks] meets, in order. *)
Definition visited {B} (ks : list K) (m : gmap K B) : list (K * B) :=
  omap (λ k, pair k <$> m !! k) ks.

(** No stored value is the nil interface: every one holds a [V]. *)
Definition typed (d : Data) : Prop := map_Forall (λ _ a, a ≠ nil) d.

#[global] Instance typed_dec d : Decision (typed d).
Proof using Type*. unfold typed. apply _. Defined.

(** No key of the map is the nil value of an interface type. *)
Definition keys_not_nil {B} (m : gmap K B) : Prop :=
  map_Forall (λ k _, isNilK k = false) m.

#[global] Instance keys_not_nil_dec {B} (m : gmap K B) :
  Decision (keys_not_nil m).
Proof. unfold keys_not_nil. apply _. Defined.

(** ** Proofs *)

#[local] Hint Unfold
  Load Get Has LoadAndDelete Store LoadOrStore GetOrStore Delete Swap
  CompareAndSwap CompareAndDelete Compute ComputeAndGet ComputeAndLoad
  sync_Load sync_Store sync_LoadOrStore sync_LoadAndDelete sync_Delete
  sync_Swap sync_CompareAndSwap sync_CompareAndDelete assertV
  bind ret panic : gsync.

(** Run a straight-line method body on contents whose lookups are known. *)
Ltac run :=
  autounfold with gsync; simpl;
  repeat (simplify_map_eq; simpl);
  try reflexivity.

(** *** Joining strings *)

Lemma append_assoc (s1 s2 s3 : string) :
  (s1 +:+ s2) +:+ s3 = s1 +:+ (s2 +:+ s3).
Proof.
  induction s1 as [|c s1 IH]; [done|].
  change (String.String c ((s1 +:+ s2) +:+ s3)
          = String.String c (s1 +:+ (s2 +:+ s3))).
  by rewrite IH.
Qed.

Lemma Join_nil sep : Join [] sep = "".
Proof. reflexivity. Qed.

Lemma Join_singleton e sep : Join [e] sep = e.
Proof. reflexivity. Qed.

(** With two elements or more, the separator stands between the first
    element and the join of the others. *)
Lemma Join_cons_cons a b l sep :
  Join (a :: b :: l) sep = a +:+ sep +:+ Join (b :: l) sep.
Proof.
  unfold Join. cbn [fold_left].
  assert (Hpre : ∀ l x y,
    fold_left (λ b s, b +:+ sep +:+ s) l (x +:+ y)
    = x +:+ fold_left (λ b s, b +:+ sep +:+ s) l y).
  { clear. induction l as [|e l IH]; intros x y; [done|].
    cbn [fold_left]. by rewrite append_assoc, IH. }
  by rewrite !Hpre.
Qed.

(** *** Conversion to [any] *)

Lemma toAny_not_nil v : isNilV v = false → toAny v = box v.
Proof. intros Hv. unfold toAny. by rewrite Hv. Qed.

Lemma toAny_nil v : isNilV v = true → toAny v = nil.
Proof. intros Hv. unfold toAny. by rewrite Hv. Qed.

(** *** Single-key reads *)

Lemma Load_present (d : Data) k v :
  d !! k = Some (box v) → Load k d = Done (v, true) d.
Proof. intros Hk. by run. Qed.

Lemma Load_absent (d : Data) k :
  d !! k = None → Load k d = Done (zeroV, false) d.
Proof. intros Hk. by run. Qed.

Lemma Load_nil (d : Data) k :
  d !! k = Some nil → Load k d = Panic d.
Proof. intros Hk. by run. Qed.

Lemma Get_present (d : Data) k v :
  d !! k = Some (box v) → Get k d = Done v d.
Proof. intros Hk. by run. Qed.

Lemma Get_absent (d : Data) k :
  d !! k = None → Get k d = Done zeroV d.
Proof. intros Hk. by run. Qed.

Lemma Get_nil (d : Data) k :
  d !! k = Some nil → Get k d = Panic d.
Proof. intros Hk. by run. Qed.

Lemma Has_lookup (d : Data) k :
  Has k d = Done (bool_decide (is_Some (d !! k))) d.
Proof.
  autounfold with gsync. by destruct (d !! k).
Qed.

Lemma Load_insert (d : Data) k v :
  isNilV v = false →
  Load k (<[k := toAny v]> d) = Done (v, true) (<[k := toAny v]> d).
Proof.
  intros Hv. apply Load_present.
  by rewrite lookup_insert_eq, toAny_not_nil.
Qed.

Lemma Load_insert_nil (d : Data) k v :
  isNilV v = true →
  Load k (<[k := toAny v]> d) = Panic (<[k := toAny v]> d).
Proof.
  intros Hv. apply Load_nil. by rewrite lookup_insert_eq, toAny_nil.
Qed.

(** *** Swap *)

Lemma Swap_present (d : Data) k v new :
  d !! k = Some (box v) →
  Swap k new d = Done (v, true) (<[k := toAny new]> d).
Proof. intros Hk. autounfold with gsync. by rewrite Hk. Qed.

Lemma Swap_absent (d : Data) k new :
  d !! k = None → Swap k new d = Panic (<[k := toAny new]> d).
Proof. intros Hk. autounfold with gsync. by rewrite Hk. Qed.

Lemma Swap_nil (d : Data) k new :
  d !! k = Some nil → Swap k new d = Panic (<[k := toAny new]> d).
Proof. intros Hk. autounfold with gsync. by rewrite Hk. Qed.

(** *** CompareAndSwap *)

Lemma CompareAndSwap_hit (d : Data) k old new :
  d !! k = Some (toAny old) →
  CompareAndSwap k old new d = Done true (<[k := toAny new]> d).
Proof.
  intros Hk. autounfold with gsync. rewrite Hk. by rewrite decide_True.
Qed.

Lemma CompareAndSwap_miss (d : Data) k old new :
  d !! k ≠ Some (toAny old) →
  CompareAndSwap k old new d = Done false d.
Proof.
  intros Hk. autounfold with gsync.
  destruct (d !! k) as [a|] eqn:Ha; [|done].
  rewrite decide_False; [done|]. congruence.
Qed.

(** [CompareAndSwap k old new] returns [true] exactly when [k] currently
    holds a value equal to [old]; then it replaces the value by [new], and
    a following [Load k] returns [(new, true)] unless [new] is a nil
    interface value, on which that [Load] panics.  In every other case it
    returns [false] and leaves the contents as they were. *)
Theorem CompareAndSwap_spec (d : Data) k old new :
  ((∃ d', CompareAndSwap k old new d = Done true d')
     ↔ d !! k = Some (toAny old))
  ∧ (d !! k = Some (toAny old) →
       CompareAndSwap k old new d = Done true (<[k := toAny new]> d)
       ∧ (isNilV new = false →
            (CompareAndSwap k old new ;; Load k) d
            = Done (new, true) (<[k := toAny new]> d))
       ∧ (isNilV new = true →
            (CompareAndSwap k old new ;; Load k) d
            = Panic (<[k := toAny new]> d)))
  ∧ (d !! k ≠ Some (toAny old) →
       CompareAndSwap k old new d = Done false d).
Proof.
  split_and!.
  - split.
    + intros [d' Hrun].
      destruct (decide (d !! k = Some (toAny old))) as [|Hne]; [done|].
      rewrite (CompareAndSwap_miss _ _ _ _ Hne) in Hrun. discriminate.
    + intros Hk. eexists. by apply CompareAndSwap_hit.
  - intros Hk. split_and!; [by apply CompareAndSwap_hit|..]; intros Hnew;
      unfold bind at 1; rewrite (CompareAndSwap_hit _ _ _ _ Hk).
    + by apply Load_insert.
    + by apply Load_insert_nil.
  - apply CompareAndSwap_miss.
Qed.

(** *** LoadOrStore *)

Lemma LoadOrStore_present (d : Data) k a v :
  d !! k = Some (box a) → LoadOrStore k v d = Done (a, true) d.
Proof. intros Hk. autounfold with gsync. by rewrite Hk. Qed.

Lemma LoadOrStore_absent (d : Data) k v :
  d !! k = None → isNilV v = false →
  LoadOrStore k v d = Done (v, false) (<[k := toAny v]> d).
Proof.
  intros Hk Hv. autounfold with gsync. rewrite Hk.
  by rewrite (toAny_not_nil _ Hv).
Qed.

Lemma LoadOrStore_absent_nil (d : Data) k v :
  d !! k = None → isNilV v = true →
  LoadOrStore k v d = Panic (<[k := toAny v]> d).
Proof.
  intros Hk Hv. autounfold with gsync. rewrite Hk.
  by rewrite (toAny_nil _ Hv).
Qed.

Lemma LoadOrStore_nil (d : Data) k v :
  d !! k = Some nil → LoadOrStore k v d = Panic d.
Proof. intros Hk. autounfold with gsync. by rewrite Hk. Qed.

(** On a present key [LoadOrStore] returns the current value with
    [loaded = true] and changes nothing; on an absent key it stores the
    given value and returns it with [loaded = false], unless the value is
    a nil interface value: then it stores it and panics. *)
Theorem LoadOrStore_spec (d : Data) k v :
  (∀ a, d !! k = Some (box a) → LoadOrStore k v d = Done (a, true) d)
  ∧ (d !! k = None → isNilV v = false →
       LoadOrStore k v d = Done (v, false) (<[k := toAny v]> d))
  ∧ (d !! k = None → isNilV v = true →
       LoadOrStore k v d = Panic (<[k := toAny v]> d)).
Proof.
  split_and!.
  - intros a. apply LoadOrStore_present.
  - apply LoadOrStore_absent.
  - apply LoadOrStore_absent_nil.
Qed.

Lemma GetOrStore_present (d : Data) k a v :
  d !! k = Some (box a) → GetOrStore k v d = Done a d.
Proof. intros Hk. autounfold with gsync. by rewrite Hk. Qed.

Lemma GetOrStore_absent (d : Data) k v :
  d !! k = None → isNilV v = false →
  GetOrStore k v d = Done v (<[k := toAny v]> d).
Proof.
  intros Hk Hv. autounfold with gsync. rewrite Hk.
  by rewrite (toAny_not_nil _ Hv).
Qed.

Lemma GetOrStore_absent_nil (d : Data) k v :
  d !! k = None → isNilV v = true →
  GetOrStore k v d = Panic (<[k := toAny v]> d).
Proof.
  intros Hk Hv. autounfold with gsync. rewrite Hk.
  by rewrite (toAny_nil _ Hv).
Qed.

(** *** LoadAndDelete *)

(** On a key that holds a value other than the nil interface,
    [LoadAndDelete] removes the key and returns the value with [true]; on
    an absent key it returns the zero value with [false] and the contents
    stay as they were. *)
Theorem LoadAndDelete_spec (d : Data) k :
  (∀ v, d !! k = Some (box v) →
        LoadAndDelete k d = Done (v, true) (delete k d)
        ∧ delete k d !! k = None)
  ∧ (d !! k = None → LoadAndDelete k d = Done (zeroV, false) d).
Proof.
  split; [intros v Hk; split|intros Hk].
  - autounfold with gsync. by rewrite Hk.
  - apply lookup_delete_eq.
  - autounfold with gsync. by rewrite Hk.
Qed.

Lemma LoadAndDelete_nil (d : Data) k :
  d !! k = Some nil → LoadAndDelete k d = Panic (delete k d).
Proof. intros Hk. autounfold with gsync. by rewrite Hk. Qed.

(** *** Store *)

Lemma Store_run (d : Data) k v : Store k v d = Done tt (<[k := toAny v]> d).
Proof. reflexivity. Qed.

(** A [Load] after a [Store] of the same key returns the stored value with
    [true], and of two successive stores the second one is read back,
    provided the value read back is not a nil interface value; after the
    [Store] of a nil interface value the [Load] panics. *)
Theorem Store_Load (d : Data) k v v1 v2 :
  (isNilV v = false →
     (Store k v ;; Load k) d = Done (v, true) (<[k := toAny v]> d))
  ∧ (isNilV v2 = false →
       (Store k v1 ;; Store k v2 ;; Load k) d
       = Done (v2, true) (<[k := toAny v2]> d))
  ∧ (isNilV v = true →
       (Store k v ;; Load k) d = Panic (<[k := toAny v]> d)).
Proof.
  split_and!; intros Hv; unfold bind; rewrite ?Store_run, ?insert_insert_eq.
  - by apply Load_insert.
  - by apply Load_insert.
  - by apply Load_insert_nil.
Qed.

(** *** Delete *)

Lemma Delete_run (d : Data) k : Delete k d = Done tt (delete k d).
Proof.
  autounfold with gsync. destruct (d !! k) eqn:Hk; [done|].
  by rewrite delete_id.
Qed.

(** C7. [Delete k] always returns normally; afterwards [k] is absent and
    every other key is as before; on contents without [k] it changes
    nothing; and two calls in a row end in the contents one call ends
    in. *)
Theorem Delete_idempotent (d : Data) k :
  Delete k d = Done tt (delete k d)
  ∧ delete k d !! k = None
  ∧ (∀ j, j ≠ k → delete k d !! j = d !! j)
  ∧ (d !! k = None → Delete k d = Done tt d)
  ∧ (Delete k ;; Delete k) d = Delete k d.
Proof.
  split_and!.
  - apply Delete_run.
  - apply lookup_delete_eq.
  - intros j Hj. by apply lookup_delete_ne.
  - intros Hk. by rewrite Delete_run, delete_id.
  - unfold bind. by rewrite !Delete_run, delete_delete_eq.
Qed.

(** *** Compute and its variants *)

Lemma Compute_present (d : Data) k v f :
  d !! k = Some (box v) → Compute k f d = Done tt (<[k := toAny (f v)]> d).
Proof.
  intros Hk. unfold Compute, bind. by rewrite (Get_present _ _ _ Hk).
Qed.

Lemma Compute_absent (d : Data) k f :
  d !! k = None → Compute k f d = Done tt (<[k := toAny (f zeroV)]> d).
Proof.
  intros Hk. unfold Compute, bind. by rewrite (Get_absent _ _ Hk).
Qed.

Lemma Compute_nil (d : Data) k f :
  d !! k = Some nil → Compute k f d = Panic d.
Proof.
  intros Hk. unfold Compute, bind. by rewrite (Get_nil _ _ Hk).
Qed.

(** [Compute k f] applies [f] to the value at [k], or to the zero value
    when [k] is absent, and stores the result; a following [Load k]
    returns that result with [true] when it is not a nil interface
    value. *)
Theorem Compute_spec (d : Data) k f :
  (∀ v, d !! k = Some (box v) →
        Compute k f d = Done tt (<[k := toAny (f v)]> d)
        ∧ (isNilV (f v) = false →
             (Compute k f ;; Load k) d
             = Done (f v, true) (<[k := toAny (f v)]> d)))
  ∧ (d !! k = None →
        Compute k f d = Done tt (<[k := toAny (f zeroV)]> d)
        ∧ (isNilV (f zeroV) = false →
             (Compute k f ;; Load k) d
             = Done (f zeroV, true) (<[k := toAny (f zeroV)]> d))).
Proof.
  split; [intros v Hk|intros Hk];
    (split; [auto using Compute_present, Compute_absent|]); intros Hf.
  - unfold bind at 1. rewrite (Compute_present _ _ _ f Hk).
    by apply Load_insert.
  - unfold bind at 1. rewrite (Compute_absent _ _ f Hk).
    by apply Load_insert.
Qed.

(** On a key that holds a value other than the nil interface,
    [ComputeAndGet] returns the current value and [ComputeAndLoad] returns
    it with [true]; both leave the contents, and so the value at the key,
    as they were: the result of [f] is not stored. *)
Theorem ComputeAnd_present (d : Data) k v f :
  d !! k = Some (box v) →
  ComputeAndGet k f d = Done v d
  ∧ ComputeAndLoad k f d = Done (v, true) d
  ∧ (ComputeAndGet k f ;; Load k) d = Done (v, true) d
  ∧ (ComputeAndLoad k f ;; Load k) d = Done (v, true) d.
Proof.
  intros Hk.
  assert (HG : ComputeAndGet k f d = Done v d).
  { unfold ComputeAndGet, bind. rewrite (Get_present _ _ _ Hk).
    by apply GetOrStore_present. }
  assert (HL : ComputeAndLoad k f d = Done (v, true) d).
  { unfold ComputeAndLoad, bind. rewrite (Get_present _ _ _ Hk).
    by apply LoadOrStore_present. }
  split_and!; [done|done|..]; unfold bind at 1.
  - rewrite HG. by apply Load_present.
  - rewrite HL. by apply Load_present.
Qed.

(** *** Walks *)

(** One step of a walk, by cases on the key at the head of the snapshot. *)
Lemma sync_Range_skip {A} (d : Data) k ks (f : K → any V → A → Go (A * bool)) acc :
  d !! k = None →
  sync_Range (k :: ks) f acc d = sync_Range ks f acc d.
Proof. intros Hk. simpl. unfold bind at 1, sync_Load. by rewrite Hk. Qed.

Lemma sync_Range_visit {A} (d : Data) k a ks (f : K → any V → A → Go (A * bool)) acc :
  d !! k = Some a →
  sync_Range (k :: ks) f acc d
  = (let* (acc', continue) := f k a acc in
     if negb continue then ret acc' else sync_Range ks f acc') d.
Proof. intros Hk. simpl. unfold bind at 1, sync_Load. by rewrite Hk. Qed.

(** A walk over empty contents calls nothing. *)
Lemma sync_Range_empty {A} ks (f : K → any V → A → Go (A * bool)) acc :
  sync_Range ks f acc (∅ : Data) = Done acc ∅.
Proof.
  induction ks as [|k ks IH]; [done|].
  rewrite sync_Range_skip; [done|]. apply lookup_empty.
Qed.

(** What [Clear] leaves behind: the snapshot's keys are gone. *)
Lemma Clear_run ks (d : Data) :
  Clear ks d = Done tt (foldl (λ d' k, delete k d') d ks).
Proof.
  unfold Clear. revert d. induction ks as [|k ks IH]; intros d; [done|].
  destruct (d !! k) as [a|] eqn:Hk.
  - rewrite (sync_Range_visit _ _ a) by done.
    unfold bind at 1 2. change (sync_Delete k d) with (Delete k d).
    rewrite Delete_run. simpl. apply IH.
  - rewrite sync_Range_skip by done. simpl.
    rewrite (delete_id d k) by done. apply IH.
Qed.

Lemma lookup_foldl_delete (d : Data) ks j :
  foldl (λ d' k, delete k d') d ks !! j
  = if decide (j ∈ ks) then None else d !! j.
Proof.
  revert d. induction ks as [|k ks IH]; intros d.
  - cbn [foldl]. destruct (decide (j ∈ [])) as [Hin|]; [|done].
    by apply elem_of_nil in Hin.
  - cbn [foldl]. rewrite IH.
    destruct (decide (j ∈ ks)) as [Hin|Hnin];
      destruct (decide (j ∈ k :: ks)) as [Hin'|Hnin']; try done.
    + destruct Hnin'. by right.
    + apply elem_of_cons in Hin' as [->|Hin']; [|done].
      apply lookup_delete_eq.
    + apply lookup_delete_ne. intros ->. destruct Hnin'. by left.
Qed.

(** C6. After [Clear] over any snapshot of the contents, no association
    is left: [Len] returns 0 and [Keys] and [Values] return empty
    sequences, whatever snapshot they walk. *)
Theorem Clear_empties (d : Data) ks ks1 ks2 ks3 :
  traversal ks d →
  Clear ks d = Done tt ∅
  ∧ (Clear ks ;; Len ks1) d = Done 0 ∅
  ∧ (Clear ks ;; Keys ks2) d = Done [] ∅
  ∧ (Clear ks ;; Values ks3) d = Done [] ∅.
Proof.
  intros [_ Hall].
  assert (Hclear : Clear ks d = Done tt ∅).
  { rewrite Clear_run. f_equal. apply map_empty. intros j.
    rewrite lookup_foldl_delete. destruct (decide (j ∈ ks)) as [|Hnin]; [done|].
    destruct (d !! j) as [a|] eqn:Hj; [|done].
    destruct Hnin. exact (Hall j a Hj). }
  split_and!; [done|..]; unfold bind; rewrite Hclear;
    apply sync_Range_empty.
Qed.

(** *** Collecting walks: Keys, Values, String *)

Lemma visited_cons {B} (m : gmap K B) k ks :
  visited (k :: ks) m
  = match m !! k with
    | Some v => (k, v) :: visited ks m
    | None => visited ks m
    end.
Proof. unfold visited. simpl. by destruct (m !! k). Qed.

Lemma elem_of_visited {B} (m : gmap K B) ks k v :
  (k, v) ∈ visited ks m ↔ k ∈ ks ∧ m !! k = Some v.
Proof.
  unfold visited. rewrite list_elem_of_omap. split.
  - intros (j & Hj & Hv). destruct (m !! j) as [w|] eqn:Hw; [|done].
    simpl in Hv. by simplify_eq.
  - intros [Hk Hv]. exists k. by rewrite Hv.
Qed.

Lemma NoDup_visited {B} (m : gmap K B) ks :
  NoDup ks → NoDup (visited ks m).
Proof.
  intros Hnd. induction Hnd as [|k ks Hk _ IH]; [constructor|].
  rewrite visited_cons. destruct (m !! k) as [v|]; [|exact IH].
  constructor; [|exact IH]. rewrite elem_of_visited.
  intros [Hin _]. exact (Hk Hin).
Qed.

(** A walk along a snapshot meets every association exactly once. *)
Lemma visited_Permutation {B} (m : gmap K B) ks :
  NoDup ks → map_Forall (λ k _, k ∈ ks) m →
  visited ks m ≡ₚ map_to_list m.
Proof.
  intros Hnd Hall. apply NoDup_Permutation.
  - by apply NoDup_visited.
  - apply NoDup_map_to_list.
  - intros [k v]. rewrite elem_of_visited, elem_of_map_to_list.
    split; [by intros [_ Hv]|]. intros Hv. split; [|done]. exact (Hall k v Hv).
Qed.

Lemma visited_fmap {B C} (h : B → C) (m : gmap K B) ks :
  visited ks (h <$> m) = prod_map id h <$> visited ks m.
Proof.
  induction ks as [|k ks IH]; [done|].
  rewrite !visited_cons, lookup_fmap.
  destruct (m !! k); simpl; by rewrite IH.
Qed.

Lemma traversal_fmap_box (m : gmap K V) ks :
  traversal ks (box <$> m) → NoDup ks ∧ map_Forall (λ k _, k ∈ ks) m.
Proof.
  intros [Hnd Hall]. split; [done|].
  intros k v Hv. apply (Hall k (box v)). by rewrite lookup_fmap, Hv.
Qed.

Lemma upto_stop_prefix {B} (p : B → bool) (l : list B) :
  upto_stop p l `prefix_of` l.
Proof.
  induction l as [|x l IH]; [done|]. simpl. destruct (p x).
  - by apply (prefix_app [x]).
  - by apply (prefix_app [x] []), prefix_nil.
Qed.

Lemma upto_stop_all {B} (p : B → bool) (l : list B) :
  (∀ x, x ∈ l → p x = true) → upto_stop p l = l.
Proof.
  induction l as [|x l IH]; intros Hp; [done|]. simpl.
  rewrite (Hp x) by left. f_equal. apply IH. intros y Hy. apply Hp. by right.
Qed.

Lemma foldl_snoc {B C} (h : B → C) (l : list B) (acc : list C) :
  foldl (λ a x, a ++ [h x]) acc l = acc ++ (h <$> l).
Proof.
  revert acc. induction l as [|x l IH]; intros acc; simpl.
  - by rewrite app_nil_r.
  - by rewrite IH, <-app_assoc.
Qed.

(** A walk through [Range] over contents without nil interface values and
    without nil keys: the callback folds over the associations met, up to
    and including the first one on which it answers [false]. *)
Lemma Range_fold {A} (g : A → K → V → A) (p : K → V → bool)
    (m : gmap K V) ks acc :
  keys_not_nil m →
  Range ks (λ key value a, ret (g a key value, p key value)) acc (box <$> m)
  = Done (foldl (λ a kv, g a kv.1 kv.2) acc
            (upto_stop (uncurry p) (visited ks m)))
         (box <$> m).
Proof.
  intros Hnn. unfold Range. revert acc.
  induction ks as [|k ks IH]; intros acc; [done|].
  rewrite visited_cons. destruct (m !! k) as [v|] eqn:Hk.
  - rewrite (sync_Range_visit _ _ (box v)) by (by rewrite lookup_fmap, Hk).
    unfold bind at 1 2 3, assertK. rewrite (Hnn k v Hk). simpl.
    destruct (p k v); simpl; [apply IH|done].
  - rewrite sync_Range_skip by (by rewrite lookup_fmap, Hk). apply IH.
Qed.

(** A walk whose callback asserts the value and appends one item. *)
Lemma sync_Range_collect {B} (g : K → V → B) (m : gmap K V) ks acc :
  sync_Range ks
    (λ key value acc,
       let* v := assertV value in ret (acc ++ [g key v], true))
    acc (box <$> m)
  = Done (acc ++ (uncurry g <$> visited ks m)) (box <$> m).
Proof.
  revert acc. induction ks as [|k ks IH]; intros acc.
  - simpl. unfold ret. by rewrite app_nil_r.
  - rewrite visited_cons. destruct (m !! k) as [v|] eqn:Hk.
    + rewrite (sync_Range_visit _ _ (box v)) by (by rewrite lookup_fmap, Hk).
      unfold bind at 1 2. simpl. rewrite IH.
      by rewrite <-app_assoc.
    + rewrite sync_Range_skip by (by rewrite lookup_fmap, Hk). apply IH.
Qed.

Lemma Values_run (m : gmap K V) ks :
  Values ks (box <$> m) = Done ((visited ks m).*2) (box <$> m).
Proof.
  unfold Values. by rewrite (sync_Range_collect (λ _ v, v)).
Qed.

Lemma Keys_run (d : Data) ks :
  keys_not_nil d →
  Keys ks d = Done ((visited ks d).*1) d.
Proof.
  intros Hnn. unfold Keys.
  enough (Hgen : ∀ acc,
    sync_Range ks
      (λ key value keys, let* k := assertK key in ret (keys ++ [k], true))
      acc d
    = Done (acc ++ (visited ks d).*1) d) by apply Hgen.
  induction ks as [|k ks IH]; intros acc.
  - simpl. unfold ret. by rewrite app_nil_r.
  - rewrite visited_cons. destruct (d !! k) as [a|] eqn:Hk.
    + rewrite (sync_Range_visit _ _ a) by done.
      unfold bind at 1 2, assertK. rewrite (Hnn k a Hk). simpl.
      rewrite IH. by rewrite <-app_assoc.
    + rewrite sync_Range_skip by done. apply IH.
Qed.

Lemma int_incr_small (l : Z) : 0 ≤ l < 2 ^ 63 - 1 → int_incr l = l + 1.
Proof.
  intros Hl. unfold int_incr, int_wrap.
  rewrite Z.mod_small by lia. lia.
Qed.

(** Below the range of [int], [Len] is the number of associations met. *)
Lemma Len_run (d : Data) ks :
  Z.of_nat (length ks) < 2 ^ 63 →
  Len ks d = Done (Z.of_nat (length (visited ks d))) d.
Proof.
  unfold Len. intros Hks.
  enough (Hgen : ∀ acc,
    0 ≤ acc → acc + Z.of_nat (length ks) < 2 ^ 63 →
    sync_Range ks (λ key value l, ret (int_incr l, true)) acc d
    = Done (acc + Z.of_nat (length (visited ks d))) d).
  { specialize (Hgen 0). rewrite !Z.add_0_l in Hgen. apply Hgen; lia. }
  clear Hks. induction ks as [|k ks IH]; intros acc Hacc Hlen.
  - simpl. unfold ret. by rewrite Z.add_0_r.
  - rewrite visited_cons. cbn [length] in Hlen.
    destruct (d !! k) as [a|] eqn:Hk.
    + rewrite (sync_Range_visit _ _ a) by done.
      unfold bind at 1, ret at 1. cbv beta iota. cbn [negb]. cbv iota.
      rewrite int_incr_small by lia. rewrite IH by lia.
      cbn [length]. f_equal. lia.
    + rewrite sync_Range_skip by done. apply IH; lia.
Qed.

(** On a map without nil interface values and without nil keys, [String]
    renders the associations the walk meets, each as [key: value] in the
    default form of its parts, joined by a comma and a space in the order
    of the walk, between braces; the walk meets every association exactly
    once; and on empty contents the result is exactly [{}]. *)
Theorem String_spec (m : gmap K V) ks ks0 :
  traversal ks (box <$> m) →
  keys_not_nil m →
  String ks (box <$> m)
  = Done ("{" +:+ Join (uncurry Sprintf_pair <$> visited ks m) ", " +:+ "}")
         (box <$> m)
  ∧ visited ks m ≡ₚ map_to_list m
  ∧ String ks0 ∅ = Done "{}" ∅.
Proof.
  intros Ht Hnn. apply traversal_fmap_box in Ht as [Hnd Hall]. split_and!.
  - unfold String, bind at 1.
    rewrite (Range_fold (λ a k v, a ++ [Sprintf_pair k v]) (λ _ _, true))
      by done.
    rewrite upto_stop_all by (by intros [??] _).
    rewrite (foldl_snoc (λ kv, Sprintf_pair kv.1 kv.2)), app_nil_l.
    assert (Hmap : (λ kv, Sprintf_pair kv.1 kv.2) <$> visited ks m
                   = uncurry Sprintf_pair <$> visited ks m).
    { apply list_fmap_ext. by intros i [??] _. }
    by rewrite Hmap.
  - by apply visited_Permutation.
  - unfold String, Range, bind at 1. by rewrite sync_Range_empty.
Qed.

(** *** Contents without nil interface values *)

Lemma typed_empty : typed ∅.
Proof. apply map_Forall_empty. Qed.

Lemma typed_insert (d : Data) k v : typed d → typed (<[k := box v]> d).
Proof. intros Hd. by apply map_Forall_insert_2. Qed.

Lemma typed_insert_toAny (d : Data) k v :
  isNilV v = false → typed d → typed (<[k := toAny v]> d).
Proof. intros Hv. rewrite (toAny_not_nil _ Hv). apply typed_insert. Qed.

Lemma typed_delete (d : Data) k : typed d → typed (delete k d).
Proof. intros Hd. by apply map_Forall_delete. Qed.

Lemma typed_lookup (d : Data) k a :
  typed d → d !! k = Some a → ∃ v, a = box v.
Proof.
  intros Hd Hk. destruct a as [|v]; [|by eexists].
  by destruct (Hd k nil Hk).
Qed.

(** Such contents are the boxed image of a map of values. *)
Lemma typed_fmap_box (m : gmap K V) : typed (box <$> m).
Proof.
  intros k a. rewrite lookup_fmap.
  destruct (m !! k); simpl; [|done]. by intros [= <-].
Qed.


Lemma keys_not_nil_fmap {B C} (h : B → C) (m : gmap K B) :
  keys_not_nil m → keys_not_nil (h <$> m).
Proof.
  intros Hnn k c. rewrite lookup_fmap.
  destruct (m !! k) as [b|] eqn:Hk; [|done]. intros _. exact (Hnn k b Hk).
Qed.


Lemma typed_Delete (d : Data) k : typed d → typed (contents (Delete k d)).
Proof. rewrite Delete_run. apply typed_delete. Qed.

Lemma typed_LoadAndDelete (d : Data) k :
  typed d → typed (contents (LoadAndDelete k d)).
Proof.
  intros Hd. autounfold with gsync.
  destruct (d !! k) as [[|v]|]; simpl; auto using typed_delete.
Qed.

Lemma typed_LoadOrStore (d : Data) k v :
  isNilV v = false → typed d → typed (contents (LoadOrStore k v d)).
Proof.
  intros Hv Hd. destruct (d !! k) as [[|a]|] eqn:Hk.
  - by rewrite LoadOrStore_nil.
  - by rewrite (LoadOrStore_present _ _ a).
  - rewrite LoadOrStore_absent by done. by apply typed_insert_toAny.
Qed.

Lemma typed_GetOrStore (d : Data) k v :
  isNilV v = false → typed d → typed (contents (GetOrStore k v d)).
Proof.
  intros Hv Hd. destruct (d !! k) as [[|a]|] eqn:Hk.
  - by destruct (Hd k nil Hk).
  - by rewrite (GetOrStore_present _ _ a).
  - rewrite GetOrStore_absent by done. by apply typed_insert_toAny.
Qed.

Lemma typed_Swap (d : Data) k v :
  isNilV v = false → typed d → typed (contents (Swap k v d)).
Proof.
  intros Hv Hd. destruct (d !! k) as [[|a]|] eqn:Hk.
  - rewrite Swap_nil by done. by apply typed_insert_toAny.
  - rewrite (Swap_present _ _ a) by done. by apply typed_insert_toAny.
  - rewrite Swap_absent by done. by apply typed_insert_toAny.
Qed.

Lemma typed_CompareAndSwap (d : Data) k old new :
  isNilV new = false → typed d →
  typed (contents (CompareAndSwap k old new d)).
Proof.
  intros Hv Hd. destruct (decide (d !! k = Some (toAny old))) as [Hk|Hk].
  - rewrite CompareAndSwap_hit by done. by apply typed_insert_toAny.
  - by rewrite CompareAndSwap_miss.
Qed.

Lemma typed_CompareAndDelete (d : Data) k old :
  typed d → typed (contents (CompareAndDelete k old d)).
Proof.
  intros Hd. autounfold with gsync.
  destruct (d !! k) as [a|]; [|done].
  destruct (decide (a = toAny old)); simpl; auto using typed_delete.
Qed.

Lemma typed_Clear (d : Data) ks : typed d → typed (contents (Clear ks d)).
Proof.
  rewrite Clear_run. simpl. revert d.
  induction ks as [|k ks IH]; intros d Hd; [done|].
  simpl. by apply IH, typed_delete.
Qed.

(** *** Further single-key behaviour *)

(** [Has] never panics and never changes the contents; it answers [true]
    exactly on present keys, and on contents without nil interface values
    its answer is the flag [Load] returns. *)
Theorem Has_spec (d : Data) k :
  (∃ b, Has k d = Done b d ∧ (b = true ↔ is_Some (d !! k)))
  ∧ (typed d → ∃ v b, Load k d = Done (v, b) d ∧ Has k d = Done b d).
Proof.
  split.
  - rewrite Has_lookup. eexists. split; [done|].
    split; [apply bool_decide_eq_true_1|apply bool_decide_eq_true_2].
  - intros Hd. destruct (d !! k) as [a|] eqn:Hk.
    + destruct (typed_lookup _ _ _ Hd Hk) as [v ->].
      exists v, true. split; [by apply Load_present|].
      autounfold with gsync. by rewrite Hk.
    + exists zeroV, false. split; [by apply Load_absent|].
      autounfold with gsync. by rewrite Hk.
Qed.

(** [CompareAndDelete k old] returns [true] exactly when [k] holds a value
    equal to [old]; then the key is removed and a following [Load] finds
    nothing.  Otherwise it returns [false] and the contents are as before. *)
Theorem CompareAndDelete_spec (d : Data) k old :
  ((∃ d', CompareAndDelete k old d = Done true d')
     ↔ d !! k = Some (toAny old))
  ∧ (d !! k = Some (toAny old) →
       CompareAndDelete k old d = Done true (delete k d)
       ∧ (CompareAndDelete k old ;; Load k) d
         = Done (zeroV, false) (delete k d))
  ∧ (d !! k ≠ Some (toAny old) →
       CompareAndDelete k old d = Done false d).
Proof.
  assert (Hyes : d !! k = Some (toAny old) →
            CompareAndDelete k old d = Done true (delete k d)).
  { intros Hk. autounfold with gsync. rewrite Hk. by rewrite decide_True. }
  assert (Hno : d !! k ≠ Some (toAny old) →
            CompareAndDelete k old d = Done false d).
  { intros Hk. autounfold with gsync.
    destruct (d !! k) as [a|] eqn:Ha; [|done].
    rewrite decide_False; [done|]. congruence. }
  split_and!.
  - split.
    + intros [d' Hrun].
      destruct (decide (d !! k = Some (toAny old))) as [|Hne]; [done|].
      rewrite (Hno Hne) in Hrun. discriminate.
    + intros Hk. eexists. by apply Hyes.
  - intros Hk. split; [by apply Hyes|].
    unfold bind at 1. rewrite (Hyes Hk). apply Load_absent, lookup_delete_eq.
  - exact Hno.
Qed.

(** [GetOrStore] is [LoadOrStore] without the flag: on every contents it
    ends as [LoadOrStore] does and returns the first component of its
    result.  A present non-nil value is read and left alone; an absent key
    receives the given value, which is returned unless it is a nil
    interface value: then the call panics after storing it. *)
Theorem GetOrStore_spec (d : Data) k v :
  GetOrStore k v d = (let* (a, _) := LoadOrStore k v in ret a) d
  ∧ (∀ a, d !! k = Some (box a) → GetOrStore k v d = Done a d)
  ∧ (d !! k = None → isNilV v = false →
       GetOrStore k v d = Done v (<[k := toAny v]> d))
  ∧ (d !! k = None → isNilV v = true →
       GetOrStore k v d = Panic (<[k := toAny v]> d)).
Proof.
  split_and!.
  - autounfold with gsync. destruct (d !! k) as [[|a]|]; [done..|].
    by destruct (toAny v).
  - intros a Hk. by apply GetOrStore_present.
  - apply GetOrStore_absent.
  - apply GetOrStore_absent_nil.
Qed.

(** On an absent key, when the transform of the zero value is not a nil
    interface value, [ComputeAndGet] and [ComputeAndLoad] store it and
    return it, the latter with [loaded = false]. *)
Theorem ComputeAnd_absent (d : Data) k f :
  d !! k = None →
  isNilV (f zeroV) = false →
  ComputeAndGet k f d = Done (f zeroV) (<[k := toAny (f zeroV)]> d)
  ∧ ComputeAndLoad k f d
    = Done (f zeroV, false) (<[k := toAny (f zeroV)]> d).
Proof.
  intros Hk Hf. split.
  - unfold ComputeAndGet, bind. rewrite (Get_absent _ _ Hk).
    by apply GetOrStore_absent.
  - unfold ComputeAndLoad, bind. rewrite (Get_absent _ _ Hk).
    by apply LoadOrStore_absent.
Qed.

(** On a key that holds a non-nil value, [Swap] returns the previous value
    with [true] and installs the new one; the other keys are as before.  A
    following [Load] returns the new value with [true], unless the new
    value is a nil interface value: then that [Load] panics. *)
Theorem Swap_present_Load (d : Data) k v new :
  d !! k = Some (box v) →
  Swap k new d = Done (v, true) (<[k := toAny new]> d)
  ∧ (isNilV new = false →
       (Swap k new ;; Load k) d = Done (new, true) (<[k := toAny new]> d))
  ∧ (isNilV new = true →
       (Swap k new ;; Load k) d = Panic (<[k := toAny new]> d))
  ∧ (∀ j, j ≠ k → <[k := toAny new]> d !! j = d !! j).
Proof.
  intros Hk. split_and!.
  - by apply Swap_present.
  - intros Hnew. unfold bind at 1. rewrite (Swap_present _ _ _ _ Hk).
    by apply Load_insert.
  - intros Hnew. unfold bind at 1. rewrite (Swap_present _ _ _ _ Hk).
    by apply Load_insert_nil.
  - intros j Hj. by apply lookup_insert_ne.
Qed.

(** On contents without nil interface values [Swap] panics exactly on
    absent keys; the new value has been stored all the same, so that the
    key is present after the panic and, when the new value is not a nil
    interface value, a [Load] finds it. *)
Theorem Swap_panics_iff_absent (d : Data) k new :
  typed d →
  (is_done (Swap k new d) = false ↔ d !! k = None)
  ∧ contents (Swap k new d) = <[k := toAny new]> d
  ∧ Has k (contents (Swap k new d)) = Done true (<[k := toAny new]> d)
  ∧ (isNilV new = false →
       Load k (contents (Swap k new d))
       = Done (new, true) (<[k := toAny new]> d)).
Proof.
  intros Hd.
  assert (Hc : contents (Swap k new d) = <[k := toAny new]> d).
  { autounfold with gsync. by destruct (d !! k) as [[|a]|]. }
  split_and!; [|done|rewrite Hc|intros Hnew; rewrite Hc; by apply Load_insert].
  - destruct (d !! k) as [a|] eqn:Hk.
    + destruct (typed_lookup _ _ _ Hd Hk) as [v ->].
      rewrite (Swap_present _ _ _ _ Hk). by split.
    + by rewrite (Swap_absent _ _ _ Hk).
  - autounfold with gsync. by rewrite lookup_insert_eq.
Qed.

(** After [Delete k], [Load k] returns the zero value with [false] and
    [Has k] answers [false]. *)
Theorem Delete_then_Load (d : Data) k :
  (Delete k ;; Load k) d = Done (zeroV, false) (delete k d)
  ∧ (Delete k ;; Has k) d = Done false (delete k d).
Proof.
  split; unfold bind at 1; rewrite Delete_run.
  - apply Load_absent, lookup_delete_eq.
  - autounfold with gsync. by rewrite lookup_delete_eq.
Qed.

(** A second [LoadOrStore] on the same key returns what the first one
    returned, now with [loaded = true], and stores nothing. *)
Theorem LoadOrStore_twice (d : Data) k v w :
  (LoadOrStore k v ;; LoadOrStore k w) d
  = (let* (a, _) := LoadOrStore k v in ret (a, true)) d.
Proof.
  unfold bind at 1 2.
  destruct (d !! k) as [[|a]|] eqn:Hk.
  - by rewrite !LoadOrStore_nil.
  - rewrite (LoadOrStore_present _ _ a v) by done.
    unfold ret. by apply LoadOrStore_present.
  - destruct (isNilV v) eqn:Hv.
    + by rewrite LoadOrStore_absent_nil.
    + rewrite LoadOrStore_absent by done. unfold ret.
      apply LoadOrStore_present.
      by rewrite lookup_insert_eq, toAny_not_nil.
Qed.

(** For a transform [f] that never returns a nil interface value, two
    [Compute]s in a row on one key, with [f] then [g], amount to one
    [Compute] with the composed transform. *)
Theorem Compute_compose (d : Data) k f g :
  (∀ x, isNilV (f x) = false) →
  (Compute k f ;; Compute k g) d = Compute k (g ∘ f) d.
Proof.
  intros Hf. unfold bind at 1.
  destruct (d !! k) as [[|v]|] eqn:Hk.
  - by rewrite !Compute_nil.
  - rewrite (Compute_present _ _ v f Hk), (Compute_present _ _ v (g ∘ f) Hk).
    rewrite (Compute_present _ _ (f v) g)
      by (by rewrite lookup_insert_eq, toAny_not_nil).
    by rewrite insert_insert_eq.
  - rewrite (Compute_absent _ _ f Hk), (Compute_absent _ _ (g ∘ f) Hk).
    rewrite (Compute_present _ _ (f zeroV) g)
      by (by rewrite lookup_insert_eq, toAny_not_nil).
    by rewrite insert_insert_eq.
Qed.

(** Writes to one key do not show at another: what [Load j] returns is the
    same before and after [Store], [Delete], [CompareAndSwap] or
    [CompareAndDelete] on a different key [k]. *)
Theorem Load_other_key (d : Data) j k v old new :
  j ≠ k →
  value_of ((Store k v ;; Load j) d) = value_of (Load j d)
  ∧ value_of ((Delete k ;; Load j) d) = value_of (Load j d)
  ∧ value_of ((CompareAndSwap k old new ;; Load j) d) = value_of (Load j d)
  ∧ value_of ((CompareAndDelete k old ;; Load j) d) = value_of (Load j d).
Proof.
  intros Hne.
  assert (Hload : ∀ d' : Data, d' !! j = d !! j →
            value_of (Load j d') = value_of (Load j d)).
  { intros d' Hj. autounfold with gsync. rewrite Hj.
    by destruct (d !! j) as [[|a]|]. }
  split_and!; unfold bind at 1.
  - rewrite Store_run. apply Hload. by apply lookup_insert_ne.
  - rewrite Delete_run. apply Hload. by apply lookup_delete_ne.
  - unfold CompareAndSwap, sync_CompareAndSwap.
    destruct (d !! k) as [a|]; [|done].
    destruct (decide (a = toAny old)); [|done].
    apply Hload. by apply lookup_insert_ne.
  - unfold CompareAndDelete, sync_CompareAndDelete.
    destruct (d !! k) as [a|]; [|done].
    destruct (decide (a = toAny old)); [|done].
    apply Hload. by apply lookup_delete_ne.
Qed.

(** *** Further behaviour of walks *)

(** A walk whose callback leaves the contents alone leaves them alone. *)
Lemma sync_Range_contents {A} ks (f : K → any V → A → Go (A * bool)) acc
    (d : Data) :
  (∀ k a acc' d', contents (f k a acc' d') = d') →
  contents (sync_Range ks f acc d) = d.
Proof.
  intros Hf. revert acc. induction ks as [|k ks IH]; intros acc; [done|].
  destruct (d !! k) as [a|] eqn:Hk.
  - rewrite (sync_Range_visit _ _ a) by done. unfold bind.
    specialize (Hf k a acc d).
    destruct (f k a acc d) as [[acc' [|]] d'|d']; simpl in *; subst d'.
    + apply IH.
    + done.
    + done.
  - rewrite sync_Range_skip by done. apply IH.
Qed.

(** A walk whose callback always returns, returns. *)
Lemma sync_Range_done {A} ks (f : K → any V → A → Go (A * bool)) acc
    (d : Data) :
  (∀ k a acc' d', is_done (f k a acc' d') = true) →
  is_done (sync_Range ks f acc d) = true.
Proof.
  intros Hf. revert acc d. induction ks as [|k ks IH]; intros acc d; [done|].
  destruct (d !! k) as [a|] eqn:Hk.
  - rewrite (sync_Range_visit _ _ a) by done. unfold bind.
    specialize (Hf k a acc d).
    destruct (f k a acc d) as [[acc' [|]] d'|d']; simpl in *; [|done..].
    apply IH.
  - rewrite sync_Range_skip by done. apply IH.
Qed.

Lemma Clear_traversal (d : Data) ks : traversal ks d → Clear ks d = Done tt ∅.
Proof.
  intros [_ Hall]. rewrite Clear_run. f_equal. apply map_empty. intros j.
  rewrite lookup_foldl_delete. destruct (decide (j ∈ ks)) as [|Hnin]; [done|].
  destruct (d !! j) as [a|] eqn:Hj; [|done].
  destruct Hnin. exact (Hall j a Hj).
Qed.

(** On a map without nil interface values and without nil keys, [Range]
    hands the callback the associations in walk order and stops after the
    first one on which the callback answers [false]: with a callback that
    folds [g] and answers [p], the result is the fold of [g] over the
    associations up to and including that one, a prefix of the walk.  The
    contents are not changed. *)
Theorem Range_stops {A} (g : A → K → V → A) (p : K → V → bool)
    (m : gmap K V) ks acc :
  keys_not_nil m →
  Range ks (λ key value a, ret (g a key value, p key value)) acc (box <$> m)
  = Done (foldl (λ a kv, g a kv.1 kv.2) acc
            (upto_stop (uncurry p) (visited ks m)))
         (box <$> m)
  ∧ upto_stop (uncurry p) (visited ks m) `prefix_of` visited ks m.
Proof.
  intros Hnn. split; [by apply Range_fold|apply upto_stop_prefix].
Qed.

(** A walk through [Range] panics, without calling the callback again,
    when it reaches a nil key or a nil interface value. *)
Theorem Range_panics_on_nil {A} (f : K → V → A → Go (A * bool))
    (d : Data) k a ks acc :
  d !! k = Some a →
  isNilK k = true ∨ a = nil →
  Range (k :: ks) f acc d = Panic d.
Proof.
  intros Hk Hnil. unfold Range.
  rewrite (sync_Range_visit _ _ a) by done.
  unfold bind, assertK. destruct (isNilK k) eqn:HnilK; [done|].
  destruct Hnil as [Hn | ->]; [congruence|done].
Qed.

(** On a map without nil interface values and without nil keys, a [Range]
    whose callback always answers [true] folds over every association of
    the map, each exactly once. *)
Theorem Range_visits_all {A} (g : A → K → V → A) (m : gmap K V) ks acc :
  traversal ks (box <$> m) →
  keys_not_nil m →
  Range ks (λ key value a, ret (g a key value, true)) acc (box <$> m)
  = Done (foldl (λ a kv, g a kv.1 kv.2) acc (visited ks m)) (box <$> m)
  ∧ visited ks m ≡ₚ map_to_list m.
Proof.
  intros Ht Hnn. apply traversal_fmap_box in Ht as [Hnd Hall]. split.
  - rewrite (Range_fold g (λ _ _, true)) by done.
    by rewrite upto_stop_all by (by intros [??] _).
  - by apply visited_Permutation.
Qed.

(** Below the range of [int], [Len] returns the number of associations. *)
Theorem Len_size (d : Data) ks :
  traversal ks d →
  Z.of_nat (length ks) < 2 ^ 63 →
  Len ks d = Done (Z.of_nat (size d)) d.
Proof.
  intros [Hnd Hall] Hlen. rewrite Len_run by done.
  by rewrite (visited_Permutation d ks Hnd Hall), length_map_to_list.
Qed.

(** On a map without nil keys, [Keys] returns every key of the map exactly
    once, in walk order, and leaves the contents alone. *)
Theorem Keys_spec (d : Data) ks :
  traversal ks d →
  keys_not_nil d →
  ∃ keys, Keys ks d = Done keys d
          ∧ NoDup keys
          ∧ keys ≡ₚ (map_to_list d).*1
          ∧ (∀ k, k ∈ keys ↔ is_Some (d !! k)).
Proof.
  intros [Hnd Hall] Hnn. exists ((visited ks d).*1).
  assert (Hperm : (visited ks d).*1 ≡ₚ (map_to_list d).*1).
  { by rewrite (visited_Permutation d ks Hnd Hall). }
  split_and!.
  - by apply Keys_run.
  - rewrite Hperm. apply NoDup_fst_map_to_list.
  - done.
  - intros k. rewrite Hperm, list_elem_of_fmap. split.
    + intros ([k' a] & -> & Hin). apply elem_of_map_to_list in Hin. by eexists.
    + intros [a Ha]. exists (k, a). split; [done|].
      by apply elem_of_map_to_list.
Qed.

(** [Keys] panics when the walk reaches a nil key. *)
Theorem Keys_panics_on_nil (d : Data) k ks :
  is_Some (d !! k) →
  isNilK k = true →
  Keys (k :: ks) d = Panic d.
Proof.
  intros [a Hk] Hnil. unfold Keys.
  rewrite (sync_Range_visit _ _ a) by done.
  unfold bind, assertK. by rewrite Hnil.
Qed.

(** On a map without nil interface values and without nil keys, [Values]
    returns the value of every association, in walk order; when [Keys] and
    [Values] walk in the same order, the i-th key goes with the i-th
    value. *)
Theorem Keys_Values_paired (m : gmap K V) ks :
  traversal ks (box <$> m) →
  keys_not_nil m →
  ∃ keys values,
    Keys ks (box <$> m) = Done keys (box <$> m)
    ∧ Values ks (box <$> m) = Done values (box <$> m)
    ∧ values ≡ₚ (map_to_list m).*2
    ∧ length keys = length values
    ∧ zip keys values ≡ₚ map_to_list m.
Proof.
  intros Ht Hnn. apply traversal_fmap_box in Ht as [Hnd Hall].
  assert (Hperm : visited ks m ≡ₚ map_to_list m)
    by (by apply visited_Permutation).
  exists ((visited ks m).*1), ((visited ks m).*2). split_and!.
  - rewrite Keys_run by (by apply keys_not_nil_fmap).
    rewrite visited_fmap. do 2 f_equal.
    rewrite <-list_fmap_compose. apply list_fmap_ext. by intros i [??] _.
  - apply Values_run.
  - by rewrite Hperm.
  - by rewrite !length_fmap.
  - by rewrite zip_fst_snd.
Qed.

(** The readers never change the contents, whether they return or panic. *)
Theorem readers_leave_contents (d : Data) k ks :
  contents (Load k d) = d
  ∧ contents (Get k d) = d
  ∧ contents (Has k d) = d
  ∧ contents (Len ks d) = d
  ∧ contents (Keys ks d) = d
  ∧ contents (Values ks d) = d
  ∧ contents (String ks d) = d.
Proof.
  split_and!.
  - autounfold with gsync. by destruct (d !! k) as [[|a]|].
  - autounfold with gsync. by destruct (d !! k) as [[|a]|].
  - autounfold with gsync. by destruct (d !! k).
  - by apply sync_Range_contents.
  - apply sync_Range_contents. intros k' a acc d'.
    unfold bind, assertK. by destruct (isNilK k').
  - apply sync_Range_contents. by intros k' [|v] acc d'.
  - unfold String, bind. unfold Range.
    match goal with
    | |- context [sync_Range ks ?f ?acc d] =>
        pose proof (sync_Range_contents ks f acc d) as Hc;
        destruct (sync_Range ks f acc d) as [l d'|d']; simpl in *
    end; apply Hc; intros k' [|v] acc d''; unfold bind, assertK;
         by destruct (isNilK k').
Qed.

(** [Has], [Store], [Delete], [Len] and [Clear] return on every contents:
    none of them asserts the type of a key or of a value. *)
Theorem never_panic (d : Data) k v ks :
  is_done (Has k d) = true
  ∧ is_done (Store k v d) = true
  ∧ is_done (Delete k d) = true
  ∧ is_done (Len ks d) = true
  ∧ is_done (Clear ks d) = true.
Proof.
  split_and!.
  - by rewrite Has_lookup.
  - done.
  - by rewrite Delete_run.
  - by apply sync_Range_done.
  - by rewrite Clear_run.
Qed.


(** A method that stores no nil interface value leaves contents without
    nil interface values that way, however it ends: the methods that only
    remove, and those that store a value or a transform's result that is
    not a nil interface value. *)
Theorem typed_preserved (d : Data) k v old new f ks :
  typed d →
  isNilV v = false →
  isNilV new = false →
  (∀ x, isNilV (f x) = false) →
  typed (contents (Store k v d))
  ∧ typed (contents (Delete k d))
  ∧ typed (contents (LoadAndDelete k d))
  ∧ typed (contents (LoadOrStore k v d))
  ∧ typed (contents (GetOrStore k v d))
  ∧ typed (contents (Swap k new d))
  ∧ typed (contents (CompareAndSwap k old new d))
  ∧ typed (contents (CompareAndDelete k old d))
  ∧ typed (contents (Compute k f d))
  ∧ typed (contents (ComputeAndGet k f d))
  ∧ typed (contents (ComputeAndLoad k f d))
  ∧ typed (contents (Clear ks d)).
Proof.
  intros Hd Hv Hnew Hf.
  split_and!;
    eauto using typed_Delete, typed_LoadAndDelete,
      typed_LoadOrStore, typed_GetOrStore, typed_Swap, typed_CompareAndSwap,
      typed_CompareAndDelete, typed_Clear.
  - rewrite Store_run. by apply typed_insert_toAny.
  - destruct (d !! k) as [[|a]|] eqn:Hk.
    + by rewrite Compute_nil.
    + rewrite (Compute_present _ _ a) by done. by apply typed_insert_toAny.
    + rewrite Compute_absent by done. by apply typed_insert_toAny.
  - unfold ComputeAndGet, bind. destruct (d !! k) as [[|a]|] eqn:Hk.
    + by rewrite Get_nil.
    + by rewrite (Get_present _ _ a), (GetOrStore_present _ _ a).
    + rewrite Get_absent by done. by apply typed_GetOrStore.
  - unfold ComputeAndLoad, bind. destruct (d !! k) as [[|a]|] eqn:Hk.
    + by rewrite Get_nil.
    + by rewrite (Get_present _ _ a), (LoadOrStore_present _ _ a).
    + rewrite Get_absent by done. by apply typed_LoadOrStore.
Qed.

(** Whatever the map held, after [Clear] it prints as [{}]. *)
Theorem Clear_then_String (d : Data) ks ks' :
  traversal ks d →
  (Clear ks ;; String ks') d = Done "{}" ∅.
Proof.
  intros Ht. unfold bind at 1. rewrite (Clear_traversal _ _ Ht).
  unfold String, Range, bind. by rewrite sync_Range_empty.
Qed.

(** [Store] on a new key makes [Len] grow by one; on a present key it
    leaves [Len] as it was. *)
Theorem Len_Store (d : Data) k v ks ks' :
  traversal ks d →
  traversal ks' (<[k := toAny v]> d) →
  Z.of_nat (length ks) < 2 ^ 63 →
  Z.of_nat (length ks') < 2 ^ 63 →
  ∃ n, Len ks d = Done n d
       ∧ (Store k v ;; Len ks') d
         = Done (if bool_decide (is_Some (d !! k)) then n else n + 1)
                (<[k := toAny v]> d).
Proof.
  intros [Hnd Hall] [Hnd' Hall'] Hlen Hlen'. exists (Z.of_nat (size d)).
  split.
  - rewrite Len_run by done.
    by rewrite (visited_Permutation d ks Hnd Hall), length_map_to_list.
  - unfold bind. rewrite Store_run, Len_run by done.
    rewrite (visited_Permutation _ ks' Hnd' Hall'), length_map_to_list.
    rewrite map_size_insert. f_equal.
    destruct (d !! k) as [a|] eqn:Hk.
    + by rewrite bool_decide_eq_true_2.
    + rewrite bool_decide_eq_false_2 by (by intros [? [=]]). simpl. lia.
Qed.

End gsync.

(** ** The failing calls *)

Import StringInt.
Import Iface.

(** C1. On an empty [Map[string, int]], [Swap("missing", 7)] does not
    return [(0, false)]: the underlying swap stores the new value and
    yields the nil interface, and the type assertion on it panics. *)
Theorem Swap_absent_key_panics :
  Swap never_nil "missing" 7 (∅ : Data) = Panic {["missing" := box 7]}
  ∧ Swap never_nil "missing" 7 (∅ : Data)
    ≠ Done (zero, false) {["missing" := box 7]}.
Proof. split; [reflexivity|discriminate]. Qed.

(** C2. On a [Map[string, any]], after [Store("a", 1)] the call
    [CompareAndSwap("a", 1, nil)] succeeds and leaves the nil interface at
    the key; the following [Load("a")] does not return [(nil, true)] but
    panics. *)
Theorem CompareAndSwap_nil_then_Load_panics :
  (Store is_nil "a" (Some 1) ;; CompareAndSwap is_nil "a" (Some 1) None)
    (∅ : DataV)
  = Done true {["a" := nil]}
  ∧ (Store is_nil "a" (Some 1) ;; CompareAndSwap is_nil "a" (Some 1) None ;;
     Load None "a") (∅ : DataV)
    = Panic {["a" := nil]}.
Proof. split; reflexivity. Qed.

(** C3. On an empty [Map[string, any]], [LoadOrStore("c", nil)] stores the
    nil interface and panics instead of returning [(nil, false)]. *)
Theorem LoadOrStore_nil_panics :
  LoadOrStore is_nil "c" None (∅ : DataV) = Panic {["c" := nil]}.
Proof. reflexivity. Qed.

(** C4. On a [Map[string, any]], after [Store("a", nil)] the key is
    present, and [LoadAndDelete("a")] removes it and panics instead of
    returning [(nil, true)]. *)
Theorem LoadAndDelete_nil_panics :
  (Store is_nil "a" None ;; Has "a") (∅ : DataV) = Done true {["a" := nil]}
  ∧ (Store is_nil "a" None ;; LoadAndDelete None "a") (∅ : DataV) = Panic ∅.
Proof. split; reflexivity. Qed.

(** C5. On a [Map[string, any]], [Load("a")] after [Store("a", nil)] does
    not return [(nil, true)] but panics. *)
Theorem Store_nil_Load_panics :
  (Store is_nil "a" None ;; Load None "a") (∅ : DataV)
  = Panic {["a" := nil]}.
Proof. reflexivity. Qed.

(** C8. [String] panics instead of rendering the map when the map holds a
    nil interface value (a [Map[string, any]] after [Store("a", nil)]) or
    a nil key (a [Map[any, int]] after [Store(nil, 1)]). *)
Theorem String_nil_panics :
  (Store is_nil "a" None ;; String never_nil fmt_string fmt_iface ["a"])
    (∅ : DataV)
  = Panic {["a" := nil]}
  ∧ (Store never_nil None 1 ;; String is_nil fmt_key fmt_int [None])
      (∅ : DataK)
    = Panic {[None := box 1]}.
Proof. split; reflexivity. Qed.

(** C9. On an empty [Map[string, any]], after [Compute("a", f)] with an
    [f] that returns nil, [Load("a")] does not return [(nil, true)] but
    panics. *)
Theorem Compute_nil_then_Load_panics :
  Compute is_nil None "a" to_nil (∅ : DataV) = Done tt {["a" := nil]}
  ∧ (Compute is_nil None "a" to_nil ;; Load None "a") (∅ : DataV)
    = Panic {["a" := nil]}.
Proof. split; reflexivity. Qed.

(** C10. On a [Map[string, any]] where ["a"] is present with the nil
    value, [ComputeAndGet] and [ComputeAndLoad] do not return it but
    panic. *)
Theorem ComputeAnd_nil_present_panics :
  (Store is_nil "a" None ;; Has "a") (∅ : DataV) = Done true {["a" := nil]}
  ∧ (Store is_nil "a" None ;; ComputeAndGet is_nil None "a" id) (∅ : DataV)
    = Panic {["a" := nil]}
  ∧ (Store is_nil "a" None ;; ComputeAndLoad is_nil None "a" id) (∅ : DataV)
    = Panic {["a" := nil]}.
Proof. split_and!; reflexivity. Qed.

(** ** Instances of the theorems *)

Lemma traversal_ba : traversal ["b"; "a"] boxed_ab.
Proof. refine (bool_decide_unpack _ _). vm_compute. exact I. Qed.

Lemma typed_boxed_ab : typed boxed_ab.
Proof. refine (bool_decide_unpack _ _). vm_compute. exact I. Qed.

Lemma keys_not_nil_ab : keys_not_nil never_nil ab.
Proof. refine (bool_decide_unpack _ _). vm_compute. exact I. Qed.

Lemma keys_not_nil_boxed_ab : keys_not_nil never_nil boxed_ab.
Proof. refine (bool_decide_unpack _ _). vm_compute. exact I. Qed.

Lemma CompareAndSwap_spec_witness :
  CompareAndSwap never_nil "a" 1 2 boxed_ab
  = Done true (<["a" := box 2]> boxed_ab)
  ∧ (CompareAndSwap never_nil "a" 1 2 ;; Load zero "a") boxed_ab
    = Done (2, true) (<["a" := box 2]> boxed_ab)
  ∧ CompareAndSwap never_nil "a" 5 3 boxed_ab = Done false boxed_ab
  ∧ CompareAndSwap never_nil "missing" 5 3 boxed_ab = Done false boxed_ab.
Proof.
  destruct (CompareAndSwap_spec never_nil zero boxed_ab "a" 1 2)
    as (_ & Hyes & _).
  destruct (CompareAndSwap_spec never_nil zero boxed_ab "a" 5 3)
    as (_ & _ & Hno).
  destruct (CompareAndSwap_spec never_nil zero boxed_ab "missing" 5 3)
    as (_ & _ & Hno').
  destruct (Hyes eq_refl) as (Hrun & Hload & _).
  split_and!; [exact Hrun|exact (Hload eq_refl)|apply Hno|apply Hno'];
    vm_compute; discriminate.
Defined.

Lemma LoadOrStore_spec_witness :
  LoadOrStore never_nil "a" 9 boxed_ab = Done (1, true) boxed_ab
  ∧ LoadOrStore never_nil "c" 9 boxed_ab
    = Done (9, false) (<["c" := box 9]> boxed_ab)
  ∧ LoadOrStore is_nil "c" None (∅ : DataV) = Panic {["c" := nil]}.
Proof.
  destruct (LoadOrStore_spec never_nil boxed_ab "a" 9) as (Hpresent & _ & _).
  destruct (LoadOrStore_spec never_nil boxed_ab "c" 9) as (_ & Habsent & _).
  destruct (LoadOrStore_spec is_nil (∅ : DataV) "c" None) as (_ & _ & Hnil).
  split_and!.
  - exact (Hpresent 1 eq_refl).
  - exact (Habsent eq_refl eq_refl).
  - exact (Hnil eq_refl eq_refl).
Defined.

Lemma LoadAndDelete_spec_witness :
  LoadAndDelete zero "a" boxed_ab = Done (1, true) (delete "a" boxed_ab)
  ∧ LoadAndDelete zero "missing" (∅ : Data) = Done (0, false) ∅.
Proof.
  destruct (LoadAndDelete_spec zero boxed_ab "a") as [Hpresent _].
  destruct (LoadAndDelete_spec zero (∅ : Data) "missing") as [_ Habsent].
  split.
  - exact (proj1 (Hpresent 1 eq_refl)).
  - exact (Habsent eq_refl).
Defined.

Lemma Store_Load_witness :
  (Store never_nil "a" 9 ;; Load zero "a") boxed_ab
  = Done (9, true) (<["a" := box 9]> boxed_ab)
  ∧ (Store never_nil "a" 8 ;; Store never_nil "a" 9 ;; Load zero "a") boxed_ab
    = Done (9, true) (<["a" := box 9]> boxed_ab)
  ∧ (Store is_nil "a" None ;; Load None "a") (∅ : DataV)
    = Panic {["a" := nil]}.
Proof.
  destruct (Store_Load never_nil zero boxed_ab "a" 9 8 9) as (H1 & H2 & _).
  destruct (Store_Load is_nil None (∅ : DataV) "a" None None None)
    as (_ & _ & H3).
  split_and!; [exact (H1 eq_refl)|exact (H2 eq_refl)|exact (H3 eq_refl)].
Defined.

Lemma Delete_idempotent_witness :
  Delete "missing" boxed_ab = Done tt boxed_ab
  ∧ (Delete "a" ;; Delete "a") boxed_ab = Delete "a" boxed_ab.
Proof.
  destruct (Delete_idempotent boxed_ab "missing") as (_ & _ & _ & Hnoop & _).
  destruct (Delete_idempotent boxed_ab "a") as (_ & _ & _ & _ & Htwice).
  split.
  - exact (Hnoop eq_refl).
  - exact Htwice.
Defined.

Lemma Clear_empties_witness :
  traversal ["b"; "a"] boxed_ab
  ∧ Clear ["b"; "a"] boxed_ab = Done tt ∅
  ∧ (Clear ["b"; "a"] ;; Len ["a"; "b"]) boxed_ab = Done 0 ∅
  ∧ (Clear ["b"; "a"] ;; Keys never_nil ["a"]) boxed_ab = Done [] ∅
  ∧ (Clear ["b"; "a"] ;; Values []) boxed_ab = Done [] ∅.
Proof.
  assert (Ht : traversal ["b"; "a"] boxed_ab).
  { refine (bool_decide_unpack _ _). vm_compute. exact I. }
  split; [exact Ht|].
  exact (Clear_empties never_nil boxed_ab ["b"; "a"] ["a"; "b"] ["a"] [] Ht).
Defined.

Lemma String_spec_witness :
  traversal ["b"; "a"] boxed_ab
  ∧ String never_nil fmt_string fmt_int ["b"; "a"] boxed_ab
    = Done "{b: 2, a: 1}" boxed_ab
  ∧ String never_nil fmt_string fmt_int [] (∅ : Data) = Done "{}" ∅.
Proof.
  assert (Ht : traversal ["b"; "a"] (box <$> ab)).
  { refine (bool_decide_unpack _ _). vm_compute. exact I. }
  split; [exact Ht|].
  destruct (String_spec never_nil fmt_string fmt_int ab ["b"; "a"] [] Ht
              keys_not_nil_ab) as (Hrun & _ & Hempty).
  split; [|exact Hempty]. exact Hrun.
Defined.

Lemma Compute_spec_witness :
  (Compute never_nil zero "b" double ;; Load zero "b") boxed_ab
  = Done (4, true) (<["b" := box 4]> boxed_ab)
  ∧ (Compute never_nil zero "c" (Z.add 3) ;; Load zero "c") boxed_ab
    = Done (3, true) (<["c" := box 3]> boxed_ab).
Proof.
  destruct (Compute_spec never_nil zero boxed_ab "b" double) as [Hpresent _].
  destruct (Compute_spec never_nil zero boxed_ab "c" (Z.add 3))
    as [_ Habsent].
  split.
  - exact (proj2 (Hpresent 2 eq_refl) eq_refl).
  - exact (proj2 (Habsent eq_refl) eq_refl).
Defined.

Lemma ComputeAnd_present_witness :
  ComputeAndGet never_nil zero "b" double boxed_ab = Done 2 boxed_ab
  ∧ ComputeAndLoad never_nil zero "b" double boxed_ab
    = Done (2, true) boxed_ab.
Proof.
  destruct (ComputeAnd_present never_nil zero boxed_ab "b" 2 double eq_refl)
    as (HG & HL & _).
  split; [exact HG|exact HL].
Defined.

Lemma Has_spec_witness :
  typed boxed_ab
  ∧ ∃ v b, Load zero "a" boxed_ab = Done (v, b) boxed_ab
           ∧ Has "a" boxed_ab = Done b boxed_ab.
Proof.
  split; [exact typed_boxed_ab|].
  exact (proj2 (Has_spec zero boxed_ab "a") typed_boxed_ab).
Defined.

Lemma CompareAndDelete_spec_witness :
  CompareAndDelete never_nil "a" 1 boxed_ab
  = Done true (delete "a" boxed_ab)
  ∧ (CompareAndDelete never_nil "a" 1 ;; Load zero "a") boxed_ab
    = Done (0, false) (delete "a" boxed_ab)
  ∧ CompareAndDelete never_nil "a" 5 boxed_ab = Done false boxed_ab
  ∧ CompareAndDelete never_nil "missing" 5 boxed_ab = Done false boxed_ab.
Proof.
  destruct (CompareAndDelete_spec never_nil zero boxed_ab "a" 1)
    as (_ & Hyes & _).
  destruct (CompareAndDelete_spec never_nil zero boxed_ab "a" 5)
    as (_ & _ & Hno).
  destruct (CompareAndDelete_spec never_nil zero boxed_ab "missing" 5)
    as (_ & _ & Hno').
  destruct (Hyes eq_refl) as [Hrun Hload].
  split_and!; [exact Hrun|exact Hload|apply Hno|apply Hno'];
    vm_compute; discriminate.
Defined.

Lemma GetOrStore_spec_witness :
  GetOrStore never_nil "a" 9 boxed_ab = Done 1 boxed_ab
  ∧ GetOrStore never_nil "c" 9 boxed_ab
    = Done 9 (<["c" := box 9]> boxed_ab)
  ∧ GetOrStore is_nil "c" None (∅ : DataV) = Panic {["c" := nil]}.
Proof.
  destruct (GetOrStore_spec never_nil boxed_ab "a" 9) as (_ & Hpresent & _).
  destruct (GetOrStore_spec never_nil boxed_ab "c" 9) as (_ & _ & Habsent & _).
  destruct (GetOrStore_spec is_nil (∅ : DataV) "c" None) as (_ & _ & _ & Hnil).
  split_and!.
  - exact (Hpresent 1 eq_refl).
  - exact (Habsent eq_refl eq_refl).
  - exact (Hnil eq_refl eq_refl).
Defined.

Lemma ComputeAnd_absent_witness :
  ComputeAndGet never_nil zero "c" (Z.add 3) boxed_ab
  = Done 3 (<["c" := box 3]> boxed_ab)
  ∧ ComputeAndLoad never_nil zero "c" (Z.add 3) boxed_ab
    = Done (3, false) (<["c" := box 3]> boxed_ab).
Proof.
  exact (ComputeAnd_absent never_nil zero boxed_ab "c" (Z.add 3)
           eq_refl eq_refl).
Defined.

Lemma Swap_present_Load_witness :
  Swap never_nil "a" 7 boxed_ab = Done (1, true) (<["a" := box 7]> boxed_ab)
  ∧ (Swap never_nil "a" 7 ;; Load zero "a") boxed_ab
    = Done (7, true) (<["a" := box 7]> boxed_ab)
  ∧ (Swap is_nil "a" None ;; Load None "a")
      ({["a" := box (Some 1)]} : DataV)
    = Panic {["a" := nil]}.
Proof.
  destruct (Swap_present_Load never_nil zero boxed_ab "a" 1 7 eq_refl)
    as (Hrun & Hload & _).
  assert (Hk : ({["a" := box (Some 1)]} : DataV) !! "a"
               = Some (box (Some 1))) by reflexivity.
  destruct (Swap_present_Load is_nil None ({["a" := box (Some 1)]} : DataV)
              "a" (Some 1) None Hk) as (_ & _ & Hnil & _).
  split_and!; [exact Hrun|exact (Hload eq_refl)|exact (Hnil eq_refl)].
Defined.

Lemma Swap_panics_iff_absent_witness :
  typed boxed_ab
  ∧ is_done (Swap never_nil "c" 7 boxed_ab) = false
  ∧ Load zero "c" (contents (Swap never_nil "c" 7 boxed_ab))
    = Done (7, true) (<["c" := box 7]> boxed_ab).
Proof.
  destruct (Swap_panics_iff_absent never_nil zero boxed_ab "c" 7
              typed_boxed_ab) as (Hiff & _ & _ & Hload).
  split_and!; [exact typed_boxed_ab| |exact (Hload eq_refl)].
  apply Hiff. reflexivity.
Defined.

Lemma Compute_compose_witness :
  (Compute never_nil zero "b" double ;; Compute never_nil zero "b" (Z.add 3))
    boxed_ab
  = Compute never_nil zero "b" (Z.add 3 ∘ double) boxed_ab.
Proof.
  exact (Compute_compose never_nil zero boxed_ab "b" double (Z.add 3)
           (λ _, eq_refl)).
Defined.

Lemma Load_other_key_witness :
  value_of ((Store never_nil "a" 9 ;; Load zero "b") boxed_ab)
  = value_of (Load zero "b" boxed_ab)
  ∧ value_of ((Delete "a" ;; Load zero "b") boxed_ab)
    = value_of (Load zero "b" boxed_ab).
Proof.
  assert (Hne : "b" ≠ "a") by discriminate.
  destruct (Load_other_key never_nil zero boxed_ab "b" "a" 9 1 2 Hne)
    as (HStore & HDelete & _).
  split; [exact HStore|exact HDelete].
Defined.

Lemma Range_stops_witness :
  Range never_nil ["b"; "a"]
    (λ key value a, ret (a + value, Z.eqb value 1)) 0 boxed_ab
  = Done 2 boxed_ab.
Proof.
  exact (proj1 (Range_stops never_nil (λ a _ value, a + value)
                  (λ _ value, Z.eqb value 1) ab ["b"; "a"] 0
                  keys_not_nil_ab)).
Defined.

Lemma Range_panics_on_nil_witness :
  Range never_nil ["a"] (λ key value a, ret (a + 1, true)) 0
    ({["a" := nil]} : DataV)
  = Panic {["a" := nil]}
  ∧ Range is_nil [None] (λ key value a, ret (a + value, true)) 0
      ({[None := box 1]} : DataK)
    = Panic {[None := box 1]}.
Proof.
  split.
  - apply (Range_panics_on_nil never_nil (λ key value a, ret (a + 1, true))
             ({["a" := nil]} : DataV) "a" nil [] 0); [reflexivity|].
    right. reflexivity.
  - apply (Range_panics_on_nil is_nil (λ key value a, ret (a + value, true))
             ({[None := box 1]} : DataK) None (box 1) [] 0); [reflexivity|].
    left. reflexivity.
Defined.

Lemma Range_visits_all_witness :
  traversal ["b"; "a"] boxed_ab
  ∧ Range never_nil ["b"; "a"] (λ key value a, ret (a + value, true)) 0
      boxed_ab
    = Done 3 boxed_ab.
Proof.
  split; [exact traversal_ba|].
  exact (proj1 (Range_visits_all never_nil (λ a _ value, a + value) ab
                  ["b"; "a"] 0 traversal_ba keys_not_nil_ab)).
Defined.

Lemma Len_size_witness :
  traversal ["b"; "a"] boxed_ab ∧ Len ["b"; "a"] boxed_ab = Done 2 boxed_ab.
Proof.
  split; [exact traversal_ba|].
  exact (Len_size boxed_ab ["b"; "a"] traversal_ba eq_refl).
Defined.

Lemma Keys_spec_witness :
  traversal ["b"; "a"] boxed_ab
  ∧ ∃ keys, Keys never_nil ["b"; "a"] boxed_ab = Done keys boxed_ab
            ∧ NoDup keys
            ∧ keys ≡ₚ (map_to_list boxed_ab).*1
            ∧ (∀ k, k ∈ keys ↔ is_Some (boxed_ab !! k)).
Proof.
  split; [exact traversal_ba|].
  exact (Keys_spec never_nil boxed_ab ["b"; "a"] traversal_ba
           keys_not_nil_boxed_ab).
Defined.

Lemma Keys_panics_on_nil_witness :
  Keys is_nil [None] ({[None := box 1]} : DataK) = Panic {[None := box 1]}.
Proof.
  refine (Keys_panics_on_nil is_nil ({[None := box 1]} : DataK) None []
            _ eq_refl).
  exists (box 1). reflexivity.
Defined.

Lemma Keys_Values_paired_witness :
  traversal ["b"; "a"] boxed_ab
  ∧ ∃ keys values,
      Keys never_nil ["b"; "a"] boxed_ab = Done keys boxed_ab
      ∧ Values ["b"; "a"] boxed_ab = Done values boxed_ab
      ∧ values ≡ₚ (map_to_list ab).*2
      ∧ length keys = length values
      ∧ zip keys values ≡ₚ map_to_list ab.
Proof.
  split; [exact traversal_ba|].
  exact (Keys_Values_paired never_nil ab ["b"; "a"] traversal_ba
           keys_not_nil_ab).
Defined.


Lemma typed_preserved_witness :
  typed boxed_ab
  ∧ typed (contents (Store never_nil "c" 9 boxed_ab))
  ∧ typed (contents (Swap never_nil "c" 7 boxed_ab)).
Proof.
  destruct (typed_preserved never_nil zero boxed_ab "c" 9 1 7 double
              ["b"; "a"] typed_boxed_ab eq_refl eq_refl (λ _, eq_refl))
    as (HStore & _ & _ & _ & _ & HSwap & _).
  split_and!; [exact typed_boxed_ab|exact HStore|exact HSwap].
Defined.

Lemma Clear_then_String_witness :
  traversal ["b"; "a"] boxed_ab
  ∧ (Clear ["b"; "a"] ;; String never_nil fmt_string fmt_int ["a"; "b"])
      boxed_ab
    = Done "{}" ∅.
Proof.
  split; [exact traversal_ba|].
  exact (Clear_then_String never_nil fmt_string fmt_int boxed_ab
           ["b"; "a"] ["a"; "b"] traversal_ba).
Defined.

Lemma Len_Store_witness :
  ∃ n, Len ["b"; "a"] boxed_ab = Done n boxed_ab
       ∧ (Store never_nil "c" 9 ;; Len ["c"; "b"; "a"]) boxed_ab
         = Done (n + 1) (<["c" := box 9]> boxed_ab).
Proof.
  assert (Ht' : traversal ["c"; "b"; "a"] (<["c" := box 9]> boxed_ab)).
  { refine (bool_decide_unpack _ _). vm_compute. exact I. }
  exact (Len_Store never_nil boxed_ab "c" 9 ["b"; "a"] ["c"; "b"; "a"]
           traversal_ba Ht' eq_refl eq_refl).
Defined.
